(** * In-memory queue storage of the STOMP broker (queue_storage.go)

    A shallow embedding of [MemoryQueueStorage] and of the five operations
    of the [QueueStorage] interface, followed by the properties of the
    storage layer: lifecycle, ordering, identity of frames, emptiness and
    the shape of the destination map. *)

From stdpp Require Import gmap strings list fin_maps.

Open Scope string_scope.
Open Scope list_scope.

(** ** Frames and pointers to frames *)

(** Modelled from the spec: the [Frame] struct of the imported package
    [github.com/jjeffery/stomp/message], whose declaration is not part of
    the source.  A frame is a mapping of header names to header values and
    a body. *)
Record Frame := mkFrame {
  headers : gmap string string;
  body : string
}.

(** The storage handles frames by pointer ([*message.Frame]): a pointer is
    [None] for Go's [nil] and [Some a] for the frame at address [a]. *)
Abbreviation FramePtr := (option positive).

(** Go's [error] interface value; [None] is [nil].  No operation of the
    file constructs an error. *)
Abbreviation error := (option string).

(** ** container/list

    The part of Go's doubly linked list that the storage uses.  A list is
    the sequence of its values from front to back; an element remembers its
    position and its value. *)
Module GoList.

Record Element := mkElement {
  pos : nat;
  Value : FramePtr
}.

(** [list.New()] *)
Definition New : list FramePtr := [].

(** [l.PushBack(v)] *)
Definition PushBack (v : FramePtr) (l : list FramePtr) : list FramePtr :=
  l ++ [v].

(** [l.PushFront(v)] *)
Definition PushFront (v : FramePtr) (l : list FramePtr) : list FramePtr :=
  v :: l.

(** [l.Front()]: the first element, or nil when the list is empty. *)
Definition Front (l : list FramePtr) : option Element :=
  match l with
  | [] => None
  | v :: _ => Some (mkElement 0 v)
  end.

(** [l.Remove(e)]: unlinks [e] and returns [e.Value]. *)
Definition Remove (e : Element) (l : list FramePtr)
  : list FramePtr * FramePtr :=
  (delete (pos e) l, Value e).

End GoList.

(** ** The storage instance and the memory it lives in *)

(** [type MemoryQueueStorage struct { lists map[string]*list.List }].
    The map itself is [None] while it is Go's nil map.  Every [*list.List]
    stored in the map is allocated by the storage and never leaves it, so
    each key owns its list and the map holds the lists by value. *)
Record MemoryQueueStorage := mkStorage {
  lists : option (gmap string (list FramePtr))
}.

(** The memory an operation runs in: the frames that pointers refer to and
    the receiver [m]. *)
Record World := mkWorld {
  heap : gmap positive Frame;
  store : MemoryQueueStorage
}.

(** ** Outcomes: a call returns or panics *)

Inductive outcome (A : Type) : Type :=
| Returned (a : A)
| Panic (msg : string).
Arguments Returned {A} a.
Arguments Panic {A} msg.

(** Computations over the world that may panic. *)
Definition M (A : Type) : Type := World -> outcome (A * World).

Definition ret {A} (a : A) : M A := fun w => Returned (a, w).

Definition bind {A B} (c : M A) (k : A -> M B) : M B :=
  fun w =>
    match c w with
    | Returned (a, w') => k a w'
    | Panic msg => Panic msg
    end.

Notation "'let*' x ':=' c 'in' k" := (bind c (fun x => k))
  (at level 10, x pattern, c at level 100, k at level 200).
Notation "c ';;' k" := (bind c (fun _ => k))
  (at level 100, k at level 200, right associativity).

(** The runtime's message for a write to a nil map. *)
Definition nil_map_panic : string := "assignment to entry in nil map".

(** [l, ok := m.lists[queue]]: reading a nil map or a missing key gives
    the zero value and [false].  The list read is the one [l] points to. *)
Definition index (queue : string) : M (list FramePtr * bool) :=
  fun w =>
    match lists (store w) with
    | None => Returned (([], false), w)
    | Some g =>
        match g !! queue with
        | Some l => Returned ((l, true), w)
        | None => Returned (([], false), w)
        end
    end.

(** [m.lists[queue] = l]: panics when the map is nil. *)
Definition assign (queue : string) (l : list FramePtr) : M unit :=
  fun w =>
    match lists (store w) with
    | None => Panic nil_map_panic
    | Some g =>
        Returned (tt, mkWorld (heap w) (mkStorage (Some (<[queue := l]> g))))
    end.

(** A method call through the pointer [l] held in [m.lists[queue]]: the
    list is changed in place, so the map sees the change. *)
Definition through {A} (queue : string)
    (f : list FramePtr -> list FramePtr * A) (dflt : A) : M A :=
  fun w =>
    match lists (store w) with
    | None => Returned (dflt, w)
    | Some g =>
        match g !! queue with
        | None => Returned (dflt, w)
        | Some l =>
            let '(l', a) := f l in
            Returned (a, mkWorld (heap w) (mkStorage (Some (<[queue := l']> g))))
        end
    end.

(** [m.lists = v] *)
Definition set_lists (v : option (gmap string (list FramePtr))) : M unit :=
  fun w => Returned (tt, mkWorld (heap w) (mkStorage v)).

(** ** The operations of MemoryQueueStorage *)

(** [NewMemoryQueueStorage]: [new] zeroes the struct, the map is nil. *)
Definition NewMemoryQueueStorage : MemoryQueueStorage := mkStorage None.

Definition Enqueue (queue : string) (frame : FramePtr) : M error :=
  let* (l, ok) := index queue in
  (if ok then ret tt else assign queue GoList.New) ;;
  through queue (fun l => (GoList.PushBack frame l, tt)) tt ;;
  ret None.

Definition Requeue (queue : string) (frame : FramePtr) : M error :=
  let* (l, ok) := index queue in
  (if ok then ret tt else assign queue GoList.New) ;;
  through queue (fun l => (GoList.PushFront frame l, tt)) tt ;;
  ret None.

(** The type assertion to a frame pointer on the value that [Remove]
    returns always succeeds: only [Enqueue] and [Requeue] put values in the
    lists, and both put a frame pointer. *)
Definition Dequeue (queue : string) : M (FramePtr * error) :=
  let* (l, ok) := index queue in
  if negb ok then ret (None, None)
  else
    match GoList.Front l with
    | None => ret (None, None)
    | Some element =>
        let* v := through queue (GoList.Remove element) None in
        ret (v, None)
    end.

Definition Start : M unit := set_lists (Some ∅).

Definition Stop : M unit := set_lists None.

(** ** Sequences of calls made by the broker *)

Inductive Op : Type :=
| OpEnqueue (queue : string) (frame : FramePtr)
| OpRequeue (queue : string) (frame : FramePtr)
| OpDequeue (queue : string)
| OpStart
| OpStop.

(** What a call hands back to its caller. *)
Inductive Result : Type :=
| RError (e : error)
| RFrame (frame : FramePtr) (e : error)
| RDone.

Definition call (op : Op) : M Result :=
  match op with
  | OpEnqueue queue frame => let* e := Enqueue queue frame in ret (RError e)
  | OpRequeue queue frame => let* e := Requeue queue frame in ret (RError e)
  | OpDequeue queue => let* (f, e) := Dequeue queue in ret (RFrame f e)
  | OpStart => Start ;; ret RDone
  | OpStop => Stop ;; ret RDone
  end.

Fixpoint calls (ops : list Op) : M (list Result) :=
  match ops with
  | [] => ret []
  | op :: ops' =>
      let* r := call op in
      let* rs := calls ops' in
      ret (r :: rs)
  end.

(** [n] successive calls of [Dequeue] on one destination. *)
Fixpoint drain (queue : string) (n : nat) : M (list (FramePtr * error)) :=
  match n with
  | O => ret []
  | S n' =>
      let* r := Dequeue queue in
      let* rs := drain queue n' in
      ret (r :: rs)
  end.

(** The three data operations, as opposed to [Start] and [Stop]. *)
Definition data_op (op : Op) : bool :=
  match op with
  | OpEnqueue _ _ | OpRequeue _ _ | OpDequeue _ => true
  | OpStart | OpStop => false
  end.

(** [op] is an [Enqueue] or a [Requeue] on destination [d]. *)
Definition puts_on (d : string) (op : Op) : bool :=
  match op with
  | OpEnqueue queue _ | OpRequeue queue _ => bool_decide (queue = d)
  | _ => false
  end.

(** [op] leaves the head of [d]'s queue alone: it is a data operation
    other than a [Requeue] or a [Dequeue] on [d]. *)
Definition keeps_head (d : string) (op : Op) : bool :=
  match op with
  | OpEnqueue _ _ => true
  | OpRequeue queue _ | OpDequeue queue => negb (bool_decide (queue = d))
  | OpStart | OpStop => false
  end.

(** The map entry that a call creates, if any. *)
Definition created (op : Op) : gset string :=
  match op with
  | OpEnqueue queue _ | OpRequeue queue _ => {[queue]}
  | _ => ∅
  end.

(** The entries that a sequence of calls creates. *)
Fixpoint created_by (ops : list Op) : gset string :=
  match ops with
  | [] => ∅
  | op :: ops' => created op ∪ created_by ops'
  end.

(** The frames that the calls of [ops] enqueue on [d], in call order. *)
Fixpoint enqueued_on (d : string) (ops : list Op) : list FramePtr :=
  match ops with
  | [] => []
  | OpEnqueue queue frame :: ops' =>
      if bool_decide (queue = d) then frame :: enqueued_on d ops'
      else enqueued_on d ops'
  | _ :: ops' => enqueued_on d ops'
  end.

(** The frame pointers handed to [Enqueue] or [Requeue] by [ops]. *)
Fixpoint frames_put (ops : list Op) : list FramePtr :=
  match ops with
  | [] => []
  | OpEnqueue _ frame :: ops' | OpRequeue _ frame :: ops' =>
      frame :: frames_put ops'
  | _ :: ops' => frames_put ops'
  end.

(** The frame pointers that the [Dequeue] calls returned. *)
Fixpoint frames_got (rs : list Result) : list FramePtr :=
  match rs with
  | [] => []
  | RFrame frame _ :: rs' => frame :: frames_got rs'
  | _ :: rs' => frames_got rs'
  end.

(** The error values among the results. *)
Fixpoint errors_of (rs : list Result) : list error :=
  match rs with
  | [] => []
  | RError e :: rs' | RFrame _ e :: rs' => e :: errors_of rs'
  | RDone :: rs' => errors_of rs'
  end.

(** ** Observations *)

(** The instance is between [Start] and [Stop]. *)
Definition started (w : World) : Prop := is_Some (lists (store w)).

(** The contents of [d]'s queue, front first; empty when there is no map
    or no entry. *)
Definition queue_of (d : string) (w : World) : list FramePtr :=
  match lists (store w) with
  | None => []
  | Some g => default [] (g !! d)
  end.

(** The destinations that have an entry in the map. *)
Definition entries (w : World) : gset string :=
  match lists (store w) with
  | None => ∅
  | Some g => dom g
  end.

(** The ["message-id"] header of the frame that [p] points to. *)
Definition message_id (w : World) (p : FramePtr) : option string :=
  match p with
  | None => None
  | Some a =>
      match heap w !! a with
      | None => None
      | Some f => headers f !! "message-id"
      end
  end.

(** A world with the given frames and a storage fresh from
    [NewMemoryQueueStorage]. *)
Definition fresh (h : gmap positive Frame) : World :=
  mkWorld h NewMemoryQueueStorage.

(** The world with the map replaced. *)
Definition with_lists (w : World) (g : gmap string (list FramePtr)) : World :=
  mkWorld (heap w) (mkStorage (Some g)).

(** Concrete frames used by the examples: [frameA] and [frameC] have no
    headers, [frameB] carries a message-id. *)
Definition frameA : Frame := mkFrame ∅ "a".
Definition frameB : Frame := mkFrame {[ "message-id" := "7" ]} "b".
Definition frameC : Frame := mkFrame ∅ "c".
Definition heapAB : gmap positive Frame :=
  {[ 1%positive := frameA; 2%positive := frameB; 3%positive := frameC ]}.
Definition ptrA : FramePtr := Some 1%positive.
Definition ptrB : FramePtr := Some 2%positive.
Definition ptrC : FramePtr := Some 3%positive.

(** ** The lifecycle seen through a sequence of calls *)

(** The map is not nil. *)
Definition up (w : World) : bool :=
  match lists (store w) with
  | Some _ => true
  | None => false
  end.

(** Whether a sequence of calls reaches an [Enqueue] or a [Requeue] while
    the map is nil; [live] tells whether the map is non-nil at the start. *)
Fixpoint faults (live : bool) (ops : list Op) : bool :=
  match ops with
  | [] => false
  | OpStart :: ops' => faults true ops'
  | OpStop :: ops' => faults false ops'
  | OpDequeue _ :: ops' => faults live ops'
  | OpEnqueue _ _ :: ops' | OpRequeue _ _ :: ops' =>
      if live then faults live ops' else true
  end.

(** The destination that a call names. *)
Definition dest (op : Op) : option string :=
  match op with
  | OpEnqueue queue _ | OpRequeue queue _ | OpDequeue queue => Some queue
  | OpStart | OpStop => None
  end.

(** [op] names the destination [d]. *)
Definition names (d : string) (op : Op) : bool :=
  bool_decide (dest op = Some d).

(** The frames that [ops] puts on [d], by [Enqueue] or by [Requeue]. *)
Fixpoint puts_of (d : string) (ops : list Op) : list FramePtr :=
  match ops with
  | [] => []
  | OpEnqueue queue frame :: ops' | OpRequeue queue frame :: ops' =>
      if bool_decide (queue = d) then frame :: puts_of d ops'
      else puts_of d ops'
  | _ :: ops' => puts_of d ops'
  end.

(** The frames that the [Dequeue] calls on [d] among [ops] returned, [rs]
    being the results of [ops] call by call. *)
Fixpoint gets_of (d : string) (ops : list Op) (rs : list Result)
  : list FramePtr :=
  match ops, rs with
  | OpDequeue queue :: ops', RFrame frame _ :: rs' =>
      if bool_decide (queue = d) then frame :: gets_of d ops' rs'
      else gets_of d ops' rs'
  | _ :: ops', _ :: rs' => gets_of d ops' rs'
  | _, _ => []
  end.

(** The addresses of the non-nil pointers of a list. *)
Definition addrs (l : list FramePtr) : list positive := omap id l.

(** ** Reference model: one double-ended queue per destination

    The behaviour that the data operations are meant to have on a started
    instance, written without the map: every destination has a sequence
    of frames, empty until something is put on it. *)

Definition set_deque (d : string) (q : list FramePtr)
    (qs : string -> list FramePtr) : string -> list FramePtr :=
  fun d' => if bool_decide (d' = d) then q else qs d'.

Definition model_call (op : Op) (qs : string -> list FramePtr)
  : Result * (string -> list FramePtr) :=
  match op with
  | OpEnqueue queue frame =>
      (RError None, set_deque queue (qs queue ++ [frame]) qs)
  | OpRequeue queue frame =>
      (RError None, set_deque queue (frame :: qs queue) qs)
  | OpDequeue queue =>
      (RFrame (hd None (qs queue)) None, set_deque queue (tl (qs queue)) qs)
  | OpStart | OpStop => (RDone, fun _ => [])
  end.

Fixpoint model_calls (ops : list Op) (qs : string -> list FramePtr)
  : list Result * (string -> list FramePtr) :=
  match ops with
  | [] => ([], qs)
  | op :: ops' =>
      let '(r, qs1) := model_call op qs in
      let '(rs, qs2) := model_calls ops' qs1 in
      (r :: rs, qs2)
  end.

(** ** The data operations on the map alone

    What a data operation returns and what it makes of the map when the
    map is [g], for comparing different orders of calls. *)

Definition result_in (op : Op) (g : gmap string (list FramePtr)) : Result :=
  match op with
  | OpEnqueue _ _ | OpRequeue _ _ => RError None
  | OpDequeue queue => RFrame (hd None (default [] (g !! queue))) None
  | OpStart | OpStop => RDone
  end.

Definition map_after (op : Op) (g : gmap string (list FramePtr))
  : gmap string (list FramePtr) :=
  match op with
  | OpEnqueue queue frame => <[queue := default [] (g !! queue) ++ [frame]]> g
  | OpRequeue queue frame => <[queue := frame :: default [] (g !! queue)]> g
  | OpDequeue queue =>
      match g !! queue with
      | Some (_ :: l) => <[queue := l]> g
      | _ => g
      end
  | OpStart | OpStop => g
  end.

(** * Properties *)

(** ** Equations of the operations *)

Section Equations.

Variables (w : World) (queue : string).

Lemma Enqueue_nil_map frame :
  lists (store w) = None -> Enqueue queue frame w = Panic nil_map_panic.
Proof. intros H. unfold Enqueue, bind, index, assign. by rewrite H; simpl; rewrite H. Qed.

Lemma Requeue_nil_map frame :
  lists (store w) = None -> Requeue queue frame w = Panic nil_map_panic.
Proof. intros H. unfold Requeue, bind, index, assign. by rewrite H; simpl; rewrite H. Qed.

Lemma Dequeue_nil_map :
  lists (store w) = None -> Dequeue queue w = Returned ((None, None), w).
Proof. intros H. unfold Dequeue, bind, index. by rewrite H. Qed.

Variable g : gmap string (list FramePtr).
Hypothesis Hg : lists (store w) = Some g.

Lemma Enqueue_eq frame :
  Enqueue queue frame w =
  Returned (None, with_lists w (<[queue := default [] (g !! queue) ++ [frame]]> g)).
Proof using Hg.
  unfold Enqueue, bind, index, assign, through, ret, with_lists.
  rewrite Hg. destruct (g !! queue) as [l|] eqn:E; simpl.
  - by rewrite Hg, E.
  - rewrite Hg; simpl. rewrite lookup_insert_eq; simpl.
    by rewrite insert_insert_eq.
Qed.

Lemma Requeue_eq frame :
  Requeue queue frame w =
  Returned (None, with_lists w (<[queue := frame :: default [] (g !! queue)]> g)).
Proof using Hg.
  unfold Requeue, bind, index, assign, through, ret, with_lists.
  rewrite Hg. destruct (g !! queue) as [l|] eqn:E; simpl.
  - by rewrite Hg, E.
  - rewrite Hg; simpl. rewrite lookup_insert_eq; simpl.
    by rewrite insert_insert_eq.
Qed.

Lemma Dequeue_eq :
  Dequeue queue w =
  match g !! queue with
  | Some (v :: l) => Returned ((v, None), with_lists w (<[queue := l]> g))
  | _ => Returned ((None, None), w)
  end.
Proof using Hg.
  unfold Dequeue, bind, index, through, ret, with_lists.
  rewrite Hg. destruct (g !! queue) as [[|v l]|] eqn:E; simpl; try done.
  by rewrite Hg, E.
Qed.

End Equations.

(** ** What each data operation does to a started instance *)

Lemma queue_of_with_lists w g d :
  queue_of d (with_lists w g) = default [] (g !! d).
Proof. reflexivity. Qed.

Lemma Enqueue_started w queue frame :
  started w ->
  exists w',
    Enqueue queue frame w = Returned (None, w') /\
    started w' /\ heap w' = heap w /\
    queue_of queue w' = queue_of queue w ++ [frame] /\
    (forall d, d ≠ queue -> queue_of d w' = queue_of d w) /\
    entries w' = {[queue]} ∪ entries w.
Proof.
  intros [g Hg]. eexists. split; [by apply Enqueue_eq|].
  unfold started, queue_of, entries. rewrite Hg. simpl.
  split_and!; try done.
  - by rewrite lookup_insert_eq.
  - intros d Hd. by rewrite lookup_insert_ne.
  - apply dom_insert_L.
Qed.

Lemma Requeue_started w queue frame :
  started w ->
  exists w',
    Requeue queue frame w = Returned (None, w') /\
    started w' /\ heap w' = heap w /\
    queue_of queue w' = frame :: queue_of queue w /\
    (forall d, d ≠ queue -> queue_of d w' = queue_of d w) /\
    entries w' = {[queue]} ∪ entries w.
Proof.
  intros [g Hg]. eexists. split; [by apply Requeue_eq|].
  unfold started, queue_of, entries. rewrite Hg. simpl.
  split_and!; try done.
  - by rewrite lookup_insert_eq.
  - intros d Hd. by rewrite lookup_insert_ne.
  - apply dom_insert_L.
Qed.

Lemma Dequeue_started w queue :
  started w ->
  exists w',
    Dequeue queue w = Returned ((hd None (queue_of queue w), None), w') /\
    started w' /\ heap w' = heap w /\
    queue_of queue w' = tl (queue_of queue w) /\
    (forall d, d ≠ queue -> queue_of d w' = queue_of d w) /\
    entries w' = entries w.
Proof.
  intros [g Hg]. rewrite (Dequeue_eq w queue g Hg).
  unfold started, queue_of, entries. rewrite Hg.
  destruct (g !! queue) as [[|v l]|] eqn:E; simpl.
  - exists w. rewrite Hg, E. by split_and!.
  - eexists. split; [done|]. simpl. split_and!; try done.
    + by rewrite lookup_insert_eq.
    + intros d Hd. by rewrite lookup_insert_ne.
    + rewrite dom_insert_L. apply subseteq_union_1_L, singleton_subseteq_l.
      by apply elem_of_dom_2 in E.
  - exists w. rewrite Hg, E. by split_and!.
Qed.

(** ** Sequences of data operations *)

Lemma calls_app ops1 ops2 w rs1 w1 :
  calls ops1 w = Returned (rs1, w1) ->
  calls (ops1 ++ ops2) w =
  match calls ops2 w1 with
  | Returned (rs2, w2) => Returned (rs1 ++ rs2, w2)
  | Panic msg => Panic msg
  end.
Proof.
  revert w rs1. induction ops1 as [|op ops1 IH]; intros w rs1; simpl.
  - unfold ret. intros [= <- <-]. by destruct (calls ops2 w) as [[??]|].
  - unfold bind. destruct (call op w) as [[r w']|]; [|done].
    destruct (calls ops1 w') as [[rs w'']|] eqn:E; [|done].
    unfold ret. intros [= <- <-]. rewrite (IH _ _ E).
    by destruct (calls ops2 w'') as [[??]|].
Qed.

(** One data operation on a started instance returns, keeps the instance
    started, leaves the frames alone and reports a nil error. *)
Lemma call_data w op :
  started w -> data_op op = true ->
  exists r w',
    call op w = Returned (r, w') /\ started w' /\ heap w' = heap w /\
    errors_of [r] = [None] /\
    entries w' = created op ∪ entries w.
Proof.
  intros Hw Hop. destruct op as [queue frame|queue frame|queue| |]; try done;
    simpl; unfold bind.
  - destruct (Enqueue_started w queue frame Hw) as (w' & -> & ? & ? & _ & _ & ?).
    by exists (RError None), w'.
  - destruct (Requeue_started w queue frame Hw) as (w' & -> & ? & ? & _ & _ & ?).
    by exists (RError None), w'.
  - destruct (Dequeue_started w queue Hw) as (w' & -> & ? & ? & _ & _ & ?).
    eexists _, w'. split_and!; try done. by rewrite (left_id_L ∅ (∪)).
Qed.

Lemma errors_of_cons r rs : errors_of (r :: rs) = errors_of [r] ++ errors_of rs.
Proof. by destruct r. Qed.

Lemma frames_got_cons r rs : frames_got (r :: rs) = frames_got [r] ++ frames_got rs.
Proof. by destruct r. Qed.

Lemma frames_put_cons op ops : frames_put (op :: ops) = frames_put [op] ++ frames_put ops.
Proof. by destruct op. Qed.

Lemma elem_of_created_by d ops :
  d ∈ created_by ops <-> existsb (puts_on d) ops = true.
Proof.
  induction ops as [|op ops IH]; simpl.
  - split; [by intros ?%not_elem_of_empty | done].
  - rewrite elem_of_union, IH, orb_true_iff.
    assert (d ∈ created op <-> puts_on d op = true) as ->; [|done].
    destruct op; simpl; rewrite ?bool_decide_eq_true, ?elem_of_singleton;
      try (split; [by intros ?%not_elem_of_empty | done]); by split.
Qed.

(** Any sequence of data operations on a started instance runs to its end:
    no call panics, every error is nil, the frames are as they were and
    the map has gained exactly the entries of the destinations that were
    enqueued or requeued on. *)
Lemma calls_data ops : forall w,
  started w -> forallb data_op ops = true ->
  exists rs w',
    calls ops w = Returned (rs, w') /\ started w' /\ heap w' = heap w /\
    Forall (eq None) (errors_of rs) /\
    entries w' = created_by ops ∪ entries w.
Proof.
  induction ops as [|op ops IH]; intros w Hw Hops; simpl in *.
  - exists [], w. split_and!; try done. by rewrite (left_id_L ∅ (∪)).
  - apply andb_true_iff in Hops as [Hop Hops].
    destruct (call_data w op Hw Hop) as (r & w1 & Hc & Hw1 & Hh1 & He1 & Hd1).
    destruct (IH w1 Hw1 Hops) as (rs & w2 & Hcs & Hw2 & Hh2 & He2 & Hd2).
    exists (r :: rs), w2. unfold bind, ret. rewrite Hc, Hcs.
    split_and!; try done.
    + congruence.
    + rewrite errors_of_cons, He1. by constructor.
    + rewrite Hd2, Hd1. by rewrite (assoc_L (∪)), (comm_L (∪) (created_by ops)).
Qed.

(** Calls that leave the head of [d]'s queue alone only append to it. *)
Lemma calls_keeps_head d ops : forall w,
  started w -> forallb (keeps_head d) ops = true ->
  exists rs w',
    calls ops w = Returned (rs, w') /\ started w' /\ heap w' = heap w /\
    queue_of d w' = queue_of d w ++ enqueued_on d ops.
Proof.
  induction ops as [|op ops IH]; intros w Hw Hops; simpl in *.
  - exists [], w. by rewrite app_nil_r.
  - apply andb_true_iff in Hops as [Hop Hops].
    assert (exists r w1, call op w = Returned (r, w1) /\ started w1 /\
              heap w1 = heap w /\
              queue_of d w1 = queue_of d w ++ enqueued_on d [op])
      as (r & w1 & Hc & Hw1 & Hh1 & Hq1).
    { destruct op as [queue frame|queue frame|queue| |]; try done;
        simpl in *; unfold bind, ret.
      - destruct (Enqueue_started w queue frame Hw)
          as (w1 & -> & ? & ? & Hq & Hne & _).
        eexists _, w1. split_and!; try done.
        case_bool_decide as E; [by subst|].
        rewrite app_nil_r. apply Hne. congruence.
      - destruct (Requeue_started w queue frame Hw)
          as (w1 & -> & ? & ? & _ & Hne & _).
        eexists _, w1. split_and!; try done.
        rewrite app_nil_r. apply Hne.
        apply negb_true_iff, bool_decide_eq_false in Hop. congruence.
      - destruct (Dequeue_started w queue Hw)
          as (w1 & -> & ? & ? & _ & Hne & _).
        eexists _, w1. split_and!; try done.
        rewrite app_nil_r. apply Hne.
        apply negb_true_iff, bool_decide_eq_false in Hop. congruence. }
    destruct (IH w1 Hw1 Hops) as (rs & w2 & Hcs & Hw2 & Hh2 & Hq2).
    exists (r :: rs), w2. unfold bind, ret. rewrite Hc, Hcs.
    split_and!; try done; [congruence|].
    rewrite Hq2, Hq1, <- app_assoc. f_equal.
    destruct op as [queue frame| | | |]; simpl; try done.
    by case_bool_decide.
Qed.

(** [n] calls of [Dequeue] hand out the first [n] frames of the queue in
    queue order, each with a nil error. *)
Lemma drain_queue d n : forall w,
  started w -> n <= length (queue_of d w) ->
  exists w',
    drain d n w = Returned ((fun f => (f, None)) <$> take n (queue_of d w), w') /\
    started w' /\ heap w' = heap w /\
    queue_of d w' = drop n (queue_of d w).
Proof.
  induction n as [|n IH]; intros w Hw Hn; simpl.
  - exists w. by rewrite drop_0.
  - destruct (Dequeue_started w d Hw) as (w1 & Hc & Hw1 & Hh1 & Hq1 & _).
    destruct (queue_of d w) as [|v q] eqn:E; simpl in *; [lia|].
    destruct (IH w1 Hw1) as (w2 & Hcs & Hw2 & Hh2 & Hq2); [rewrite Hq1; lia|].
    exists w2. unfold bind, ret. rewrite Hc, Hcs, Hq1.
    split_and!; try done; congruence.
Qed.

Lemma enqueued_on_app d ops1 ops2 :
  enqueued_on d (ops1 ++ ops2) = enqueued_on d ops1 ++ enqueued_on d ops2.
Proof.
  induction ops1 as [|op ops1 IH]; [done|].
  destruct op as [queue frame| | | |]; simpl; try done.
  case_bool_decide; simpl; by rewrite IH.
Qed.

Lemma forallb_app_true {A} (f : A -> bool) l1 l2 :
  forallb f l1 = true -> forallb f l2 = true -> forallb f (l1 ++ l2) = true.
Proof. intros H1 H2. rewrite forallb_app. by rewrite H1, H2. Qed.

(** Whatever holds of the frames in the queues and of the frames handed to
    the storage holds of the frames that [Dequeue] returns. *)
Lemma call_held (P : FramePtr -> Prop) w op :
  started w -> data_op op = true ->
  (forall d p, p ∈ queue_of d w -> P p) ->
  (forall p, p ∈ frames_put [op] -> P p) ->
  exists r w',
    call op w = Returned (r, w') /\ started w' /\
    (forall d p, p ∈ queue_of d w' -> P p) /\
    (forall a, Some a ∈ frames_got [r] -> P (Some a)).
Proof.
  intros Hw Hop Hq Hp.
  destruct op as [queue frame|queue frame|queue| |]; try done;
    simpl in *; unfold bind, ret.
  - destruct (Enqueue_started w queue frame Hw)
      as (w' & -> & ? & _ & Hq' & Hne & _).
    eexists _, w'. split_and!; try done.
    + intros d p. destruct (decide (d = queue)) as [->|Hd].
      * rewrite Hq', elem_of_app, list_elem_of_singleton.
        intros [?| ->]; [by eapply Hq | apply Hp; by left].
      * rewrite (Hne d Hd). apply Hq.
    + by intros a ?%elem_of_nil.
  - destruct (Requeue_started w queue frame Hw)
      as (w' & -> & ? & _ & Hq' & Hne & _).
    eexists _, w'. split_and!; try done.
    + intros d p. destruct (decide (d = queue)) as [->|Hd].
      * rewrite Hq', elem_of_cons.
        intros [->|?]; [apply Hp; by left | by eapply Hq].
      * rewrite (Hne d Hd). apply Hq.
    + by intros a ?%elem_of_nil.
  - destruct (Dequeue_started w queue Hw)
      as (w' & -> & ? & _ & Hq' & Hne & _).
    eexists _, w'. split_and!; try done.
    + intros d p. destruct (decide (d = queue)) as [->|Hd].
      * rewrite Hq'. intros Hin. apply (Hq queue).
        destruct (queue_of queue w); [done | by right].
      * rewrite (Hne d Hd). apply Hq.
    + intros a Ha%list_elem_of_singleton. apply (Hq queue).
      destruct (queue_of queue w); simpl in *; [done | subst; by left].
Qed.

Lemma calls_held (P : FramePtr -> Prop) ops : forall w,
  started w -> forallb data_op ops = true ->
  (forall d p, p ∈ queue_of d w -> P p) ->
  (forall p, p ∈ frames_put ops -> P p) ->
  exists rs w',
    calls ops w = Returned (rs, w') /\
    (forall a, Some a ∈ frames_got rs -> P (Some a)).
Proof.
  induction ops as [|op ops IH]; intros w Hw Hops Hq Hp.
  - exists [], w. split; [done|]. by intros a ?%elem_of_nil.
  - simpl in Hops. apply andb_true_iff in Hops as [Hop Hops].
    rewrite frames_put_cons in Hp. simpl calls.
    destruct (call_held P w op Hw Hop Hq) as (r & w1 & Hc & Hw1 & Hq1 & Hr).
    { intros p Hin. apply Hp, elem_of_app. by left. }
    destruct (IH w1 Hw1 Hops Hq1) as (rs & w2 & Hcs & Hrs).
    { intros p Hin. apply Hp, elem_of_app. by right. }
    exists (r :: rs), w2. unfold bind, ret. rewrite Hc, Hcs. split; [done|].
    intros a. rewrite frames_got_cons, elem_of_app. intros [?|?]; auto.
Qed.

(** [Start] on any instance gives a started one with an empty map. *)
Lemma call_Start w :
  call OpStart w = Returned (RDone, with_lists w ∅).
Proof. reflexivity. Qed.

Lemma calls_Start ops w :
  calls (OpStart :: ops) w =
  match calls ops (with_lists w ∅) with
  | Returned (rs, w') => Returned (RDone :: rs, w')
  | Panic msg => Panic msg
  end.
Proof. reflexivity. Qed.

Lemma call_Stop w :
  call OpStop w = Returned (RDone, mkWorld (heap w) (mkStorage None)).
Proof. reflexivity. Qed.

Lemma started_with_lists w g : started (with_lists w g).
Proof. by exists g. Qed.

Lemma queue_of_not_entry d w : d ∉ entries w -> queue_of d w = [].
Proof.
  unfold entries, queue_of. destruct (lists (store w)) as [g|]; [|done].
  intros ->%not_elem_of_dom. done.
Qed.

(** ** Accounting for the frames of a destination *)

Lemma gets_of_cons d op ops r rs :
  gets_of d (op :: ops) (r :: rs) = gets_of d [op] [r] ++ gets_of d ops rs.
Proof.
  destruct op as [| |queue| |], r as [|fr e|]; simpl; try done.
  by case_bool_decide.
Qed.

Lemma puts_of_cons d op ops :
  puts_of d (op :: ops) = puts_of d [op] ++ puts_of d ops.
Proof.
  destruct op as [queue frame|queue frame| | |]; simpl; try done;
    by case_bool_decide.
Qed.

(** One data operation: the frames it hands out of [d] and the frames [d]
    holds afterwards are the frames [d] held and the frames it was given. *)
Lemma call_accounts d w op :
  started w -> data_op op = true ->
  exists r w',
    call op w = Returned (r, w') /\ started w' /\
    addrs (gets_of d [op] [r]) ++ addrs (queue_of d w')
      ≡ₚ addrs (queue_of d w) ++ addrs (puts_of d [op]).
Proof.
  intros Hw Hop. unfold addrs.
  destruct op as [queue frame|queue frame|queue| |]; try done;
    simpl; unfold bind, ret.
  - destruct (Enqueue_started w queue frame Hw) as (w' & -> & ? & _ & Hq & Hne & _).
    eexists _, w'. split_and!; try done. simpl.
    case_bool_decide as E.
    + subst. by rewrite Hq, omap_app.
    + rewrite Hne by congruence. by rewrite app_nil_r.
  - destruct (Requeue_started w queue frame Hw) as (w' & -> & ? & _ & Hq & Hne & _).
    eexists _, w'. split_and!; try done. simpl.
    case_bool_decide as E.
    + subst. rewrite Hq. change (frame :: queue_of d w) with ([frame] ++ queue_of d w).
      rewrite omap_app. apply Permutation_app_comm.
    + rewrite Hne by congruence. by rewrite app_nil_r.
  - destruct (Dequeue_started w queue Hw) as (w' & -> & ? & _ & Hq & Hne & _).
    eexists _, w'. split_and!; try done. simpl.
    case_bool_decide as E.
    + subst. rewrite Hq, app_nil_r. destruct (queue_of d w) as [|v q]; [done|].
      simpl. by destruct v.
    + rewrite Hne by congruence. by rewrite app_nil_r.
Qed.

(** The same over a sequence of data operations. *)
Lemma calls_accounts d ops : forall w,
  started w -> forallb data_op ops = true ->
  exists rs w',
    calls ops w = Returned (rs, w') /\ started w' /\
    addrs (gets_of d ops rs) ++ addrs (queue_of d w')
      ≡ₚ addrs (queue_of d w) ++ addrs (puts_of d ops).
Proof.
  induction ops as [|op ops IH]; intros w Hw Hops.
  - exists [], w. split_and!; try done. simpl. by rewrite app_nil_r.
  - simpl in Hops. apply andb_true_iff in Hops as [Hop Hops].
    destruct (call_accounts d w op Hw Hop) as (r & w1 & Hc & Hw1 & H1).
    destruct (IH w1 Hw1 Hops) as (rs & w2 & Hcs & Hw2 & H2).
    exists (r :: rs), w2. simpl calls. unfold bind, ret. rewrite Hc, Hcs.
    split_and!; try done.
    rewrite gets_of_cons, puts_of_cons. unfold addrs in *.
    rewrite !omap_app, <- (assoc_L (++)), H2, !(assoc_L (++)), H1. done.
Qed.

(** ** Lifecycle *)

(** C1, as the claim states it, fails: on an instance fresh from
    [NewMemoryQueueStorage], and on one that was started and stopped,
    [Enqueue] and [Requeue] fault on the nil map and [Dequeue] succeeds
    with the empty result and a nil error; none of them returns an error. *)
Lemma lifecycle_guard_fails :
  Enqueue "orders" ptrA (fresh heapAB) = Panic nil_map_panic /\
  Requeue "orders" ptrA (fresh heapAB) = Panic nil_map_panic /\
  Dequeue "orders" (fresh heapAB) = Returned ((None, None), fresh heapAB) /\
  calls [OpStart; OpStop; OpEnqueue "orders" ptrA] (fresh heapAB)
    = Panic nil_map_panic /\
  calls [OpStart; OpStop; OpDequeue "orders"] (fresh heapAB)
    = Returned ([RDone; RDone; RFrame None None], fresh heapAB).
Proof. split_and!; reflexivity. Qed.

(** C1 (amended): before [Start] or after [Stop], that is while the map is
    nil, no data operation returns an error value: [Dequeue] returns the
    empty result with a nil error and leaves the instance as it was, and
    [Enqueue] and [Requeue] return neither an error nor a success. *)
Theorem unstarted_returns_no_error w d f :
  lists (store w) = None ->
  Dequeue d w = Returned ((None, None), w) /\
  (forall e w', Enqueue d f w <> Returned (e, w')) /\
  (forall e w', Requeue d f w <> Returned (e, w')).
Proof.
  intros H. split_and!.
  - by apply Dequeue_nil_map.
  - intros e w'. by rewrite Enqueue_nil_map.
  - intros e w'. by rewrite Requeue_nil_map.
Qed.

Lemma unstarted_returns_no_error_witness :
  lists (store (fresh heapAB)) = None /\
  Dequeue "orders" (fresh heapAB) = Returned ((None, None), fresh heapAB) /\
  (forall e w', Enqueue "orders" ptrA (fresh heapAB) <> Returned (e, w')) /\
  (forall e w', Requeue "orders" ptrA (fresh heapAB) <> Returned (e, w')).
Proof.
  split; [reflexivity|].
  apply (unstarted_returns_no_error (fresh heapAB) "orders" ptrA). reflexivity.
Defined.

(** C10: on a started instance [Enqueue] and [Requeue] return a nil error
    for every destination name, the empty string included, and for every
    frame pointer, nil included. *)
Theorem Enqueue_Requeue_nil_error w d f :
  started w ->
  (exists w', Enqueue d f w = Returned (None, w')) /\
  (exists w', Requeue d f w = Returned (None, w')).
Proof.
  intros Hw. split.
  - destruct (Enqueue_started w d f Hw) as (w' & H & _). by exists w'.
  - destruct (Requeue_started w d f Hw) as (w' & H & _). by exists w'.
Qed.

Lemma Enqueue_Requeue_nil_error_witness :
  (exists w', Enqueue "" None (with_lists (fresh heapAB) ∅) = Returned (None, w')) /\
  (exists w', Requeue "" None (with_lists (fresh heapAB) ∅) = Returned (None, w')).
Proof.
  apply (Enqueue_Requeue_nil_error (with_lists (fresh heapAB) ∅) "" None).
  exists ∅. reflexivity.
Defined.

(** C8: [Stop] discards what the storage holds.  Whatever data operations
    ran on a started instance, [Stop] returns and leaves the map nil:
    every queue is gone and [Dequeue] returns the empty result on every
    destination.  [Start] after it installs an empty map, on which
    [Dequeue] again returns the empty result on every destination; the
    frames in memory are not touched by either. *)
Theorem Stop_discards_frames w ops d :
  started w -> forallb data_op ops = true ->
  exists rs w1 w2,
    calls (ops ++ [OpStop]) w = Returned (rs ++ [RDone], w1) /\
    lists (store w1) = None /\
    queue_of d w1 = [] /\
    Dequeue d w1 = Returned ((None, None), w1) /\
    calls (ops ++ [OpStop; OpStart]) w = Returned (rs ++ [RDone; RDone], w2) /\
    call OpStart w1 = Returned (RDone, w2) /\
    lists (store w2) = Some ∅ /\
    Dequeue d w2 = Returned ((None, None), w2) /\
    heap w1 = heap w /\ heap w2 = heap w.
Proof.
  intros Hw Hops.
  destruct (calls_data ops w Hw Hops) as (rs & w0 & Hc & _ & Hh & _).
  exists rs, (mkWorld (heap w0) (mkStorage None)), (with_lists w0 ∅).
  rewrite !(calls_app _ _ _ _ _ Hc). simpl.
  by split_and!.
Qed.

Lemma Stop_discards_frames_witness :
  exists rs w1 w2,
    calls ([OpEnqueue "orders" ptrA; OpEnqueue "orders" ptrB] ++ [OpStop])
      (with_lists (fresh heapAB) ∅) = Returned (rs ++ [RDone], w1) /\
    lists (store w1) = None /\
    queue_of "orders" w1 = [] /\
    Dequeue "orders" w1 = Returned ((None, None), w1) /\
    calls ([OpEnqueue "orders" ptrA; OpEnqueue "orders" ptrB]
             ++ [OpStop; OpStart])
      (with_lists (fresh heapAB) ∅) = Returned (rs ++ [RDone; RDone], w2) /\
    call OpStart w1 = Returned (RDone, w2) /\
    lists (store w2) = Some ∅ /\
    Dequeue "orders" w2 = Returned ((None, None), w2) /\
    heap w1 = heap (with_lists (fresh heapAB) ∅) /\
    heap w2 = heap (with_lists (fresh heapAB) ∅).
Proof.
  apply (Stop_discards_frames (with_lists (fresh heapAB) ∅)
           [OpEnqueue "orders" ptrA; OpEnqueue "orders" ptrB] "orders").
  - exists ∅. reflexivity.
  - reflexivity.
Defined.

(** ** Message identifiers *)

(** C2, at its failing input: after [Start], [Enqueue] of two frames that
    carry no message-id on two destinations returns a nil error twice and
    leaves both frames without a message-id, so no identifier was assigned
    and the two frames are not told apart by one. *)
Theorem Enqueue_assigns_no_message_id :
  exists w',
    calls [OpStart; OpEnqueue "orders" ptrA; OpEnqueue "invoices" ptrC]
      (fresh heapAB)
    = Returned ([RDone; RError None; RError None], w') /\
    message_id (fresh heapAB) ptrA = None /\
    message_id (fresh heapAB) ptrC = None /\
    message_id w' ptrA = None /\
    message_id w' ptrC = None /\
    queue_of "orders" w' = [ptrA] /\
    queue_of "invoices" w' = [ptrC].
Proof. eexists. split_and!; reflexivity. Qed.

(** C5: [Requeue] never allocates an identifier.  On a started instance,
    for every destination, whether or not it has a queue yet, and every
    frame that has a message-id: [Requeue] returns a nil error and writes
    to no frame, the frame has the same message-id afterwards, the next
    [Dequeue] on the destination returns the same frame pointer, and the
    frame still has the message-id it had before the requeue. *)
Theorem Requeue_keeps_message_id w d a id :
  started w ->
  message_id w (Some a) = Some id ->
  exists w2 w3,
    Requeue d (Some a) w = Returned (None, w2) /\
    heap w2 = heap w /\
    message_id w2 (Some a) = Some id /\
    Dequeue d w2 = Returned ((Some a, None), w3) /\
    heap w3 = heap w /\
    message_id w3 (Some a) = Some id.
Proof.
  intros Hw Hid.
  destruct (Requeue_started w d (Some a) Hw) as (w2 & Hr & Hw2 & Hh2 & Hq2 & _).
  destruct (Dequeue_started w2 d Hw2) as (w3 & Hd3 & _ & Hh3 & _).
  rewrite Hq2 in Hd3. simpl in Hd3.
  exists w2, w3. unfold message_id in *. rewrite Hh3, Hh2. by split_and!.
Qed.

Lemma Requeue_keeps_message_id_witness :
  exists w2 w3,
    Requeue "orders" ptrB (with_lists (fresh heapAB) {[ "invoices" := [ptrC] ]})
      = Returned (None, w2) /\
    heap w2 = heap (with_lists (fresh heapAB) {[ "invoices" := [ptrC] ]}) /\
    message_id w2 ptrB = Some "7" /\
    Dequeue "orders" w2 = Returned ((ptrB, None), w3) /\
    heap w3 = heap (with_lists (fresh heapAB) {[ "invoices" := [ptrC] ]}) /\
    message_id w3 ptrB = Some "7".
Proof.
  apply (Requeue_keeps_message_id
           (with_lists (fresh heapAB) {[ "invoices" := [ptrC] ]}) "orders"
           2%positive "7").
  - eexists. reflexivity.
  - reflexivity.
Defined.

(** C9: the storage never writes to a frame, and what [Dequeue] returns
    is the very pointer that was put.  Whatever data operations run after
    [Start], every call returns and
    - the frames in memory (headers, message-id included, and body) are
      exactly as before;
    - every non-nil frame pointer that a [Dequeue] returned is one of the
      pointers that were handed to [Enqueue] or [Requeue];
    - on every destination, the pointers that [Dequeue] returned together
      with those still queued are, with repetitions, the pointers that
      were put on it;
    - draining a destination with [Dequeue] returns exactly the pointers
      still queued, in queue order, without touching a frame;
    - from the state reached, a frame pointer given to [Requeue] is what
      the next [Dequeue] returns, and a frame pointer given to [Enqueue]
      is what [Dequeue] returns once the frames queued before it are
      out, the frames in memory being the same throughout. *)
Theorem storage_never_writes_frames w0 ops :
  forallb data_op ops = true ->
  exists rs w,
    calls (OpStart :: ops) w0 = Returned (RDone :: rs, w) /\
    heap w = heap w0 /\
    (forall p, message_id w p = message_id w0 p) /\
    (forall a, Some a ∈ frames_got rs -> Some a ∈ frames_put ops) /\
    (forall d, addrs (gets_of d ops rs) ++ addrs (queue_of d w)
                 ≡ₚ addrs (puts_of d ops)) /\
    (forall d, exists w',
        drain d (length (queue_of d w)) w
          = Returned ((fun f => (f, None)) <$> queue_of d w, w') /\
        heap w' = heap w0) /\
    (forall d p, exists w1 w2,
        Requeue d p w = Returned (None, w1) /\ heap w1 = heap w0 /\
        Dequeue d w1 = Returned ((p, None), w2) /\ heap w2 = heap w0) /\
    (forall d p, exists w1 w2 w3,
        Enqueue d p w = Returned (None, w1) /\ heap w1 = heap w0 /\
        drain d (length (queue_of d w)) w1
          = Returned ((fun f => (f, None)) <$> queue_of d w, w2) /\
        Dequeue d w2 = Returned ((p, None), w3) /\ heap w3 = heap w0).
Proof.
  intros Hops.
  pose proof (started_with_lists w0 ∅) as Hw.
  destruct (calls_data ops _ Hw Hops) as (rs & w & Hc & Hsw & Hh & _).
  destruct (calls_held (fun p => p ∈ frames_put ops) ops _ Hw Hops)
    as (rs' & w' & Hc' & Hgot); [|done|].
  { intros d p. rewrite queue_of_with_lists, lookup_empty. by intros ?%elem_of_nil. }
  rewrite Hc in Hc'. injection Hc' as <- <-.
  change (heap (with_lists w0 ∅)) with (heap w0) in Hh.
  exists rs, w. rewrite calls_Start, Hc.
  split_and!; try done.
  - intros p. unfold message_id. by rewrite Hh.
  - intros d.
    destruct (calls_accounts d ops _ Hw Hops) as (rs' & w' & Hc' & _ & Hperm).
    rewrite Hc in Hc'. injection Hc' as <- <-.
    by rewrite queue_of_with_lists, lookup_empty in Hperm.
  - intros d.
    destruct (drain_queue d (length (queue_of d w)) w Hsw)
      as (w' & Hdr & _ & Hh' & _); [lia|].
    rewrite firstn_all in Hdr. exists w'. split; [done | congruence].
  - intros d p.
    destruct (Requeue_started w d p Hsw) as (w1 & Hr & Hw1 & Hh1 & Hq1 & _).
    destruct (Dequeue_started w1 d Hw1) as (w2 & Hd & _ & Hh2 & _).
    rewrite Hq1 in Hd. exists w1, w2. split_and!; try done; congruence.
  - intros d p.
    destruct (Enqueue_started w d p Hsw) as (w1 & He & Hw1 & Hh1 & Hq1 & _).
    destruct (drain_queue d (length (queue_of d w)) w1 Hw1)
      as (w2 & Hdr & Hw2 & Hh2 & Hq2); [rewrite Hq1, length_app; lia|].
    rewrite Hq1, take_app_length in Hdr.
    rewrite Hq1, drop_app_length in Hq2.
    destruct (Dequeue_started w2 d Hw2) as (w3 & Hd & _ & Hh3 & _).
    rewrite Hq2 in Hd. exists w1, w2, w3. split_and!; try done; congruence.
Qed.

Lemma storage_never_writes_frames_witness :
  exists w,
    calls (OpStart :: [OpEnqueue "orders" ptrA; OpEnqueue "orders" ptrB;
                       OpDequeue "orders"]) (fresh heapAB)
      = Returned ([RDone; RError None; RError None; RFrame ptrA None], w) /\
    heap w = heapAB /\
    queue_of "orders" w = [ptrB] /\
    (exists w',
        drain "orders" 1 w = Returned ([(ptrB, None)], w') /\
        heap w' = heapAB) /\
    (forall d p, exists w1 w2,
        Requeue d p w = Returned (None, w1) /\ heap w1 = heapAB /\
        Dequeue d w1 = Returned ((p, None), w2) /\ heap w2 = heapAB).
Proof.
  destruct (storage_never_writes_frames (fresh heapAB)
              [OpEnqueue "orders" ptrA; OpEnqueue "orders" ptrB;
               OpDequeue "orders"])
    as (rs & w & Hc & Hh & _ & _ & _ & Hdr & Hre & _).
  - reflexivity.
  - assert (calls (OpStart :: [OpEnqueue "orders" ptrA; OpEnqueue "orders" ptrB;
                               OpDequeue "orders"]) (fresh heapAB)
            = Returned ([RDone; RError None; RError None; RFrame ptrA None],
                        with_lists (fresh heapAB) {[ "orders" := [ptrB] ]}))
      as Hrun by reflexivity.
    rewrite Hrun in Hc. injection Hc as <- <-.
    exists (with_lists (fresh heapAB) {[ "orders" := [ptrB] ]}).
    split_and!; [reflexivity | reflexivity | reflexivity | | exact Hre].
    destruct (Hdr "orders") as (w' & Hd & Hh').
    exists w'. split; [exact Hd | exact Hh'].
Defined.

(** ** Ordering *)

(** C3: on a started instance, enqueue [A] on [d], let any calls run that
    are neither a [Requeue] nor a [Dequeue] on [d], then enqueue [B] on
    [d].  Every call returns, and draining [d] with successive [Dequeue]
    calls returns, each with a nil error, the frames that were queued
    before, then [A], then what the calls in between enqueued on [d], then
    [B]: [A] comes out at an earlier call than [B]. *)
Theorem Enqueue_fifo w d A B mid :
  started w -> forallb (keeps_head d) mid = true ->
  exists rs w1 out w2,
    calls (OpEnqueue d A :: mid ++ [OpEnqueue d B]) w = Returned (rs, w1) /\
    drain d (length (queue_of d w1)) w1 = Returned (out, w2) /\
    out = (fun f => (f, None)) <$>
            (queue_of d w ++ A :: enqueued_on d mid ++ [B]) /\
    queue_of d w2 = [] /\
    exists i j, i < j /\ out !! i = Some (A, None) /\ out !! j = Some (B, None).
Proof.
  intros Hw Hmid.
  destruct (calls_keeps_head d (OpEnqueue d A :: mid ++ [OpEnqueue d B]) w Hw)
    as (rs & w1 & Hc & Hw1 & _ & Hq1).
  { simpl. apply forallb_app_true; [done | reflexivity]. }
  change (OpEnqueue d A :: mid ++ [OpEnqueue d B])
    with ([OpEnqueue d A] ++ mid ++ [OpEnqueue d B]) in Hq1.
  rewrite !enqueued_on_app in Hq1. simpl in Hq1.
  rewrite bool_decide_eq_true_2 in Hq1 by done. simpl in Hq1.
  destruct (drain_queue d (length (queue_of d w1)) w1 Hw1)
    as (w2 & Hdr & _ & _ & Hq2); [lia|].
  rewrite firstn_all in Hdr. rewrite drop_all in Hq2.
  exists rs, w1, ((fun f => (f, None)) <$> queue_of d w1), w2.
  split_and!; try done; [by rewrite Hq1|].
  exists (length (queue_of d w)),
         (length (queue_of d w) + S (length (enqueued_on d mid))).
  rewrite Hq1. split_and!; [lia | |].
  - rewrite list_lookup_fmap, lookup_app_r by lia.
    by rewrite Nat.sub_diag.
  - rewrite list_lookup_fmap, lookup_app_r by lia.
    replace (length (queue_of d w) + S (length (enqueued_on d mid))
               - length (queue_of d w))
      with (S (length (enqueued_on d mid))) by lia.
    simpl. rewrite lookup_app_r by lia. by rewrite Nat.sub_diag.
Qed.

Lemma Enqueue_fifo_witness :
  exists rs w1 out w2,
    calls (OpEnqueue "orders" ptrA
             :: [OpEnqueue "invoices" ptrC; OpDequeue "invoices"]
             ++ [OpEnqueue "orders" ptrB])
      (with_lists (fresh heapAB) ∅) = Returned (rs, w1) /\
    drain "orders" (length (queue_of "orders" w1)) w1 = Returned (out, w2) /\
    out = (fun f => (f, None)) <$>
            (queue_of "orders" (with_lists (fresh heapAB) ∅)
               ++ ptrA :: enqueued_on "orders"
                            [OpEnqueue "invoices" ptrC; OpDequeue "invoices"]
               ++ [ptrB]) /\
    queue_of "orders" w2 = [] /\
    exists i j, i < j /\ out !! i = Some (ptrA, None) /\ out !! j = Some (ptrB, None).
Proof.
  apply (Enqueue_fifo (with_lists (fresh heapAB) ∅) "orders" ptrA ptrB
           [OpEnqueue "invoices" ptrC; OpDequeue "invoices"]).
  - exists ∅. reflexivity.
  - reflexivity.
Defined.

(** C4: on a started instance, when [Enqueue(d, A)], [Enqueue(d, B)] and a
    [Dequeue(d)] that returned [A] are followed by [Requeue(d, A)], the
    next [Dequeue(d)] returns [A] again, and [B] is still at the back of
    the queue behind it: draining the queue returns [B] last. *)
Theorem Requeue_at_head w d A B w3 :
  started w ->
  calls [OpEnqueue d A; OpEnqueue d B; OpDequeue d] w
    = Returned ([RError None; RError None; RFrame A None], w3) ->
  exists w5 out w6,
    calls [OpRequeue d A; OpDequeue d] w3
      = Returned ([RError None; RFrame A None], w5) /\
    queue_of d w5 = tl (queue_of d w ++ [A]) ++ [B] /\
    drain d (length (queue_of d w5)) w5 = Returned (out, w6) /\
    out = (fun f => (f, None)) <$> (tl (queue_of d w ++ [A]) ++ [B]) /\
    last out = Some (B, None).
Proof.
  intros Hw. simpl. unfold bind, ret.
  destruct (Enqueue_started w d A Hw) as (w1 & -> & Hw1 & _ & Hq1 & _).
  destruct (Enqueue_started w1 d B Hw1) as (w2 & -> & Hw2 & _ & Hq2 & _).
  destruct (Dequeue_started w2 d Hw2) as (w3' & -> & Hw3 & _ & Hq3 & _).
  intros [= HA <-].
  destruct (Requeue_started w3' d A Hw3) as (w4 & -> & Hw4 & _ & Hq4 & _).
  destruct (Dequeue_started w4 d Hw4) as (w5 & -> & Hw5 & _ & Hq5 & _).
  rewrite Hq4 in Hq5 |- *. simpl in *.
  assert (queue_of d w5 = tl (queue_of d w ++ [A]) ++ [B]) as Hq.
  { rewrite Hq5, Hq3, Hq2, Hq1. by destruct (queue_of d w). }
  destruct (drain_queue d (length (queue_of d w5)) w5 Hw5)
    as (w6 & Hdr & _); [lia|].
  rewrite firstn_all, Hq in Hdr.
  exists w5, ((fun f => (f, None)) <$> (tl (queue_of d w ++ [A]) ++ [B])), w6.
  split_and!; try done.
  - congruence.
  - rewrite fmap_app. apply last_snoc.
Qed.

Lemma Requeue_at_head_witness :
  exists w5 out w6,
    calls [OpRequeue "orders" ptrA; OpDequeue "orders"]
      (with_lists (fresh heapAB) {[ "orders" := [ptrB] ]})
      = Returned ([RError None; RFrame ptrA None], w5) /\
    queue_of "orders" w5
      = tl (queue_of "orders" (with_lists (fresh heapAB) ∅) ++ [ptrA]) ++ [ptrB] /\
    drain "orders" (length (queue_of "orders" w5)) w5 = Returned (out, w6) /\
    out = (fun f => (f, None)) <$>
            (tl (queue_of "orders" (with_lists (fresh heapAB) ∅) ++ [ptrA]) ++ [ptrB]) /\
    last out = Some (ptrB, None).
Proof.
  apply (Requeue_at_head (with_lists (fresh heapAB) ∅) "orders" ptrA ptrB
           (with_lists (fresh heapAB) {[ "orders" := [ptrB] ]})).
  - exists ∅. reflexivity.
  - reflexivity.
Defined.

(** ** Emptiness and the entries of the map *)

(** C6: after [Start] and any data operations, all of which return,
    [Dequeue] on a destination that no [Enqueue] or [Requeue] named returns
    the empty result (a nil frame) with a nil error and changes nothing;
    and on any destination, once its queue has been drained by [Dequeue]
    calls, the next [Dequeue] returns the empty result with a nil error. *)
Theorem Dequeue_empty_result w0 ops d :
  forallb data_op ops = true ->
  exists rs w,
    calls (OpStart :: ops) w0 = Returned (RDone :: rs, w) /\
    (existsb (puts_on d) ops = false ->
     Dequeue d w = Returned ((None, None), w)) /\
    exists out w',
      drain d (length (queue_of d w)) w = Returned (out, w') /\
      Forall (fun r => r.2 = None) out /\
      Dequeue d w' = Returned ((None, None), w').
Proof.
  intros Hops.
  pose proof (started_with_lists w0 ∅) as Hw0.
  destruct (calls_data ops _ Hw0 Hops) as (rs & w & Hc & Hw & _ & _ & Hent).
  exists rs, w. rewrite calls_Start, Hc. split_and!; [done | |].
  - intros Hno.
    assert (queue_of d w = []) as Hq.
    { apply queue_of_not_entry. rewrite Hent.
      change (entries (with_lists w0 ∅)) with (dom (∅ : gmap string (list FramePtr))).
      rewrite dom_empty_L, (right_id_L ∅ (∪)), elem_of_created_by. congruence. }
    destruct (Dequeue_started w d Hw) as (w' & Hd & _).
    destruct Hw as [g Hg]. rewrite (Dequeue_eq w d g Hg) in Hd |- *.
    unfold queue_of in Hq. rewrite Hg in Hq.
    by destruct (g !! d) as [[|v l]|].
  - destruct (drain_queue d (length (queue_of d w)) w Hw)
      as (w' & Hdr & Hw' & _ & Hq'); [lia|].
    rewrite drop_all in Hq'.
    eexists _, w'. split_and!; [exact Hdr | |].
    + apply Forall_fmap. by apply Forall_true.
    + destruct Hw' as [g Hg]. rewrite (Dequeue_eq w' d g Hg).
      unfold queue_of in Hq'. rewrite Hg in Hq'.
      by destruct (g !! d) as [[|v l]|].
Qed.

Lemma Dequeue_empty_result_witness :
  exists rs w,
    calls (OpStart :: [OpEnqueue "orders" ptrA; OpDequeue "invoices"])
      (fresh heapAB) = Returned (RDone :: rs, w) /\
    (existsb (puts_on "invoices")
       [OpEnqueue "orders" ptrA; OpDequeue "invoices"] = false ->
     Dequeue "invoices" w = Returned ((None, None), w)) /\
    exists out w',
      drain "invoices" (length (queue_of "invoices" w)) w = Returned (out, w') /\
      Forall (fun r => r.2 = None) out /\
      Dequeue "invoices" w' = Returned ((None, None), w').
Proof.
  apply (Dequeue_empty_result (fresh heapAB)
           [OpEnqueue "orders" ptrA; OpDequeue "invoices"] "invoices").
  reflexivity.
Defined.

(** C7: after [Start] and any data operations, the map has an entry for a
    destination exactly when one of the operations was an [Enqueue] or a
    [Requeue] on it.  From there, a [Dequeue] on any destination leaves
    the set of entries as it is, and no data operation removes an entry. *)
Theorem entry_iff_put w0 ops :
  forallb data_op ops = true ->
  exists rs w,
    calls (OpStart :: ops) w0 = Returned (RDone :: rs, w) /\
    (forall d, d ∈ entries w <-> existsb (puts_on d) ops = true) /\
    (forall d, exists r w',
        Dequeue d w = Returned (r, w') /\ entries w' = entries w) /\
    (forall op, data_op op = true -> exists r w',
        call op w = Returned (r, w') /\ entries w ⊆ entries w').
Proof.
  intros Hops.
  pose proof (started_with_lists w0 ∅) as Hw0.
  destruct (calls_data ops _ Hw0 Hops) as (rs & w & Hc & Hw & _ & _ & Hent).
  exists rs, w. rewrite calls_Start, Hc. split_and!; [done | | |].
  - intros d. rewrite Hent.
    change (entries (with_lists w0 ∅)) with (dom (∅ : gmap string (list FramePtr))).
    by rewrite dom_empty_L, (right_id_L ∅ (∪)), elem_of_created_by.
  - intros d. destruct (Dequeue_started w d Hw) as (w' & Hd & _ & _ & _ & _ & He).
    by eexists _, w'.
  - intros op Hop.
    destruct (call_data w op Hw Hop) as (r & w' & Hcall & _ & _ & _ & He).
    exists r, w'. split; [done|]. rewrite He. apply union_subseteq_r.
Qed.

Lemma entry_iff_put_witness :
  exists rs w,
    calls (OpStart :: [OpDequeue "invoices"; OpRequeue "orders" ptrA;
                       OpDequeue "orders"])
      (fresh heapAB) = Returned (RDone :: rs, w) /\
    (forall d, d ∈ entries w <->
       existsb (puts_on d) [OpDequeue "invoices"; OpRequeue "orders" ptrA;
                            OpDequeue "orders"] = true) /\
    (forall d, exists r w',
        Dequeue d w = Returned (r, w') /\ entries w' = entries w) /\
    (forall op, data_op op = true -> exists r w',
        call op w = Returned (r, w') /\ entries w ⊆ entries w').
Proof.
  apply (entry_iff_put (fresh heapAB)
           [OpDequeue "invoices"; OpRequeue "orders" ptrA; OpDequeue "orders"]).
  reflexivity.
Defined.

(** * Further properties of the operations *)

(** ** When a sequence of calls faults *)

Lemma up_started w : up w = true <-> started w.
Proof.
  unfold up, started. by destruct (lists (store w)); split.
Qed.

Lemma up_nil_map w : up w = false <-> lists (store w) = None.
Proof. unfold up. by destruct (lists (store w)). Qed.

(** One call, in either state of the map: it faults exactly when it is an
    [Enqueue] or a [Requeue] on a nil map, and otherwise it returns with a
    nil error, the frames untouched, and the map nil or not as [Start] and
    [Stop] decide. *)
Lemma call_any w op :
  if faults (up w) [op] then call op w = Panic nil_map_panic
  else exists r w',
      call op w = Returned (r, w') /\ heap w' = heap w /\
      Forall (eq None) (errors_of [r]) /\
      forall ops, faults (up w) (op :: ops) = faults (up w') ops.
Proof.
  destruct (up w) eqn:Hup.
  - apply up_started in Hup as Hw.
    destruct op as [queue frame|queue frame|queue| |]; simpl; unfold bind, ret.
    + destruct (Enqueue_started w queue frame Hw) as (w' & -> & Hw' & ? & _).
      apply up_started in Hw'. eexists _, w'. rewrite Hw'.
      split_and!; try done. by repeat constructor.
    + destruct (Requeue_started w queue frame Hw) as (w' & -> & Hw' & ? & _).
      apply up_started in Hw'. eexists _, w'. rewrite Hw'.
      split_and!; try done. by repeat constructor.
    + destruct (Dequeue_started w queue Hw) as (w' & -> & Hw' & ? & _).
      apply up_started in Hw'. eexists _, w'. rewrite Hw'.
      split_and!; try done. by repeat constructor.
    + eexists _, _. by split_and!.
    + eexists _, _. by split_and!.
  - apply up_nil_map in Hup as Hw.
    destruct op as [queue frame|queue frame|queue| |]; simpl; unfold bind, ret.
    + by rewrite Enqueue_nil_map.
    + by rewrite Requeue_nil_map.
    + rewrite Dequeue_nil_map by done. eexists _, w. rewrite Hup.
      split_and!; try done. by repeat constructor.
    + eexists _, _. by split_and!.
    + eexists _, _. by split_and!.
Qed.

Lemma faults_single live op ops :
  faults live [op] = true -> faults live (op :: ops) = true.
Proof. by destruct op, live. Qed.

(** X1: a sequence of calls of the five operations, from any state, faults
    exactly when it reaches an [Enqueue] or a [Requeue] while the map is
    nil, and then with the runtime's nil-map message; every other sequence
    returns, with a nil error from every call and the frames in memory as
    they were. *)
Theorem calls_fault_exactly ops : forall w,
  if faults (up w) ops then calls ops w = Panic nil_map_panic
  else exists rs w',
      calls ops w = Returned (rs, w') /\ heap w' = heap w /\
      Forall (eq None) (errors_of rs).
Proof.
  induction ops as [|op ops IH]; intros w.
  - simpl. exists [], w. by split_and!.
  - pose proof (call_any w op) as Hop.
    destruct (faults (up w) [op]) eqn:H1.
    + rewrite (faults_single _ _ _ H1). simpl. unfold bind. by rewrite Hop.
    + destruct Hop as (r & w1 & Hc & Hh & He & Hf).
      rewrite Hf. specialize (IH w1). simpl. unfold bind, ret. rewrite Hc.
      destruct (faults (up w1) ops).
      * by rewrite IH.
      * destruct IH as (rs & w2 & -> & Hh2 & He2).
        exists (r :: rs), w2. split_and!; [done | congruence |].
        rewrite errors_of_cons. by apply Forall_app.
Qed.

(** ** The storage against the reference model *)

Lemma model_call_ext op qs qs' :
  (forall d, qs d = qs' d) ->
  (model_call op qs).1 = (model_call op qs').1 /\
  forall d, (model_call op qs).2 d = (model_call op qs').2 d.
Proof.
  intros H. destruct op as [queue frame|queue frame|queue| |]; simpl;
    (split; [|intros d; unfold set_deque; try case_bool_decide]);
    rewrite ?H; done.
Qed.

Lemma model_calls_ext ops : forall qs qs',
  (forall d, qs d = qs' d) ->
  (model_calls ops qs).1 = (model_calls ops qs').1 /\
  forall d, (model_calls ops qs).2 d = (model_calls ops qs').2 d.
Proof.
  induction ops as [|op ops IH]; intros qs qs' H; [done|]. simpl.
  destruct (model_call_ext op qs qs' H) as [Hr Hq].
  destruct (model_call op qs) as [r qs1], (model_call op qs') as [r' qs1'].
  simpl in *. subst r'. destruct (IH qs1 qs1' Hq) as [Hrs Hqs].
  destruct (model_calls ops qs1) as [rs qs2],
           (model_calls ops qs1') as [rs' qs2'].
  simpl in *. by subst rs'.
Qed.

(** One data operation does to the queues what the model does. *)
Lemma call_model w op :
  started w -> data_op op = true ->
  exists w',
    call op w = Returned ((model_call op (fun d => queue_of d w)).1, w') /\
    started w' /\
    forall d, queue_of d w' = (model_call op (fun d => queue_of d w)).2 d.
Proof.
  intros Hw Hop. destruct op as [queue frame|queue frame|queue| |]; try done;
    simpl; unfold bind, ret, set_deque.
  - destruct (Enqueue_started w queue frame Hw) as (w' & -> & ? & _ & Hq & Hne & _).
    exists w'. split_and!; try done. intros d. case_bool_decide; subst; auto.
  - destruct (Requeue_started w queue frame Hw) as (w' & -> & ? & _ & Hq & Hne & _).
    exists w'. split_and!; try done. intros d. case_bool_decide; subst; auto.
  - destruct (Dequeue_started w queue Hw) as (w' & -> & ? & _ & Hq & Hne & _).
    exists w'. split_and!; try done. intros d. case_bool_decide; subst; auto.
Qed.

(** X2: on a started instance every sequence of data operations returns
    what the reference model returns (a nil error for [Enqueue] and
    [Requeue], the head of the destination's queue or nil for [Dequeue]),
    and leaves every destination's queue as the model leaves it:
    [Enqueue] appends, [Requeue] prepends, [Dequeue] removes the head. *)
Theorem calls_refine_model ops : forall w,
  started w -> forallb data_op ops = true ->
  exists w',
    calls ops w = Returned ((model_calls ops (fun d => queue_of d w)).1, w') /\
    started w' /\
    forall d, queue_of d w' = (model_calls ops (fun d => queue_of d w)).2 d.
Proof.
  induction ops as [|op ops IH]; intros w Hw Hops.
  - exists w. by split_and!.
  - simpl in Hops. apply andb_true_iff in Hops as [Hop Hops].
    destruct (call_model w op Hw Hop) as (w1 & Hc & Hw1 & Hq1).
    destruct (IH w1 Hw1 Hops) as (w2 & Hcs & Hw2 & Hq2).
    exists w2. simpl. unfold bind, ret. rewrite Hc, Hcs.
    destruct (model_call op (fun d => queue_of d w)) as [r qs1]. simpl in *.
    destruct (model_calls_ext ops _ _ Hq1) as [Hrs Hqs].
    destruct (model_calls ops (fun d => queue_of d w1)) as [rs qs2],
             (model_calls ops qs1) as [rs' qs2'].
    simpl in *. subst rs'. split_and!; try done.
    intros d. by rewrite Hq2, Hqs.
Qed.

Lemma calls_refine_model_witness :
  exists w',
    calls [OpEnqueue "orders" ptrA; OpRequeue "orders" ptrB; OpDequeue "orders"]
      (with_lists (fresh heapAB) ∅)
    = Returned ([RError None; RError None; RFrame ptrB None], w') /\
    queue_of "orders" w' = [ptrA].
Proof.
  destruct (calls_refine_model
              [OpEnqueue "orders" ptrA; OpRequeue "orders" ptrB; OpDequeue "orders"]
              (with_lists (fresh heapAB) ∅))
    as (w' & Hc & _ & Hq).
  - exists ∅. reflexivity.
  - reflexivity.
  - exists w'. split; [exact Hc | exact (Hq "orders")].
Defined.

(** ** Destinations are independent *)

(** X3: on a started instance, data operations on other destinations never
    touch [d]: whatever sequence of them runs, [d]'s queue holds the same
    frames in the same order afterwards, and [d] has an entry in the map
    exactly if it had one before. *)
Theorem other_destinations_untouched d ops : forall w,
  started w -> forallb data_op ops = true ->
  existsb (names d) ops = false ->
  exists rs w',
    calls ops w = Returned (rs, w') /\
    queue_of d w' = queue_of d w /\
    (d ∈ entries w' <-> d ∈ entries w).
Proof.
  induction ops as [|op ops IH]; intros w Hw Hops Hd.
  - by exists [], w.
  - simpl in Hops, Hd. apply andb_true_iff in Hops as [Hop Hops].
    apply orb_false_iff in Hd as [Hn Hd].
    assert (exists r w1, call op w = Returned (r, w1) /\ started w1 /\
              queue_of d w1 = queue_of d w /\
              (d ∈ entries w1 <-> d ∈ entries w))
      as (r & w1 & Hc & Hw1 & Hq1 & He1).
    { unfold names in Hn. apply bool_decide_eq_false in Hn.
      destruct op as [queue frame|queue frame|queue| |]; try done;
        simpl in *; unfold bind, ret;
        assert (d ≠ queue) as Hne by congruence.
      - destruct (Enqueue_started w queue frame Hw)
          as (w1 & -> & ? & _ & _ & Hq & He).
        eexists _, w1. split_and!; try done; [by apply Hq|].
        rewrite He, elem_of_union, elem_of_singleton.
        split; [intros [?|?]; [congruence | done] | by right].
      - destruct (Requeue_started w queue frame Hw)
          as (w1 & -> & ? & _ & _ & Hq & He).
        eexists _, w1. split_and!; try done; [by apply Hq|].
        rewrite He, elem_of_union, elem_of_singleton.
        split; [intros [?|?]; [congruence | done] | by right].
      - destruct (Dequeue_started w queue Hw)
          as (w1 & -> & ? & _ & _ & Hq & He).
        eexists _, w1. split_and!; try done; [by apply Hq|]. by rewrite He. }
    destruct (IH w1 Hw1 Hops Hd) as (rs & w2 & Hcs & Hq2 & He2).
    exists (r :: rs), w2. simpl. unfold bind, ret. rewrite Hc, Hcs.
    split_and!; [done | congruence | by rewrite He2].
Qed.

Lemma other_destinations_untouched_witness :
  exists rs w',
    calls [OpEnqueue "invoices" ptrC; OpDequeue "invoices"; OpDequeue "bills"]
      (with_lists (fresh heapAB) {[ "orders" := [ptrA; ptrB] ]})
    = Returned (rs, w') /\
    queue_of "orders" w'
      = queue_of "orders" (with_lists (fresh heapAB) {[ "orders" := [ptrA; ptrB] ]}) /\
    ("orders" ∈ entries w' <->
     "orders" ∈ entries (with_lists (fresh heapAB) {[ "orders" := [ptrA; ptrB] ]})).
Proof.
  apply (other_destinations_untouched "orders"
           [OpEnqueue "invoices" ptrC; OpDequeue "invoices"; OpDequeue "bills"]
           (with_lists (fresh heapAB) {[ "orders" := [ptrA; ptrB] ]})).
  - eexists. reflexivity.
  - reflexivity.
  - reflexivity.
Defined.

(** ** No frame is lost and none is made up *)

(** X4: on a started instance, for every destination and every sequence of
    data operations, the non-nil frames that the [Dequeue] calls returned
    together with those still queued are, counted with repetitions, the
    frames that were queued at the start together with those that
    [Enqueue] and [Requeue] were given: no frame is lost, duplicated or
    invented. *)
Theorem frames_conserved d ops : forall w,
  started w -> forallb data_op ops = true ->
  exists rs w',
    calls ops w = Returned (rs, w') /\
    addrs (gets_of d ops rs) ++ addrs (queue_of d w')
      ≡ₚ addrs (queue_of d w) ++ addrs (puts_of d ops).
Proof.
  induction ops as [|op ops IH]; intros w Hw Hops.
  - exists [], w. split; [done|]. simpl. by rewrite app_nil_r.
  - simpl in Hops. apply andb_true_iff in Hops as [Hop Hops].
    destruct (call_accounts d w op Hw Hop) as (r & w1 & Hc & Hw1 & H1).
    destruct (IH w1 Hw1 Hops) as (rs & w2 & Hcs & H2).
    exists (r :: rs), w2. simpl calls. unfold bind, ret. rewrite Hc, Hcs.
    split; [done|].
    rewrite gets_of_cons, puts_of_cons. unfold addrs in *.
    rewrite !omap_app, <- (assoc_L (++)), H2, !(assoc_L (++)), H1. done.
Qed.

Lemma frames_conserved_witness :
  exists rs w',
    calls [OpEnqueue "orders" ptrA; OpDequeue "orders"; OpDequeue "orders";
           OpRequeue "orders" ptrB; OpEnqueue "orders" None]
      (with_lists (fresh heapAB) ∅) = Returned (rs, w') /\
    addrs (gets_of "orders"
             [OpEnqueue "orders" ptrA; OpDequeue "orders"; OpDequeue "orders";
              OpRequeue "orders" ptrB; OpEnqueue "orders" None] rs)
      ++ addrs (queue_of "orders" w')
      ≡ₚ addrs (queue_of "orders" (with_lists (fresh heapAB) ∅))
         ++ addrs (puts_of "orders"
                     [OpEnqueue "orders" ptrA; OpDequeue "orders";
                      OpDequeue "orders"; OpRequeue "orders" ptrB;
                      OpEnqueue "orders" None]).
Proof.
  apply (frames_conserved "orders"
           [OpEnqueue "orders" ptrA; OpDequeue "orders"; OpDequeue "orders";
            OpRequeue "orders" ptrB; OpEnqueue "orders" None]
           (with_lists (fresh heapAB) ∅)).
  - eexists. reflexivity.
  - reflexivity.
Defined.

(** ** Putting a frame back and taking it again *)

Lemma with_lists_id w g : lists (store w) = Some g -> with_lists w g = w.
Proof. destruct w as [h [l]]. simpl. by intros ->. Qed.

(** X5: on a started instance [Requeue] followed by [Dequeue] on the same
    destination returns the requeued frame pointer, both with a nil error,
    and leaves every queue with the frames it had.  When the destination
    already had an entry the whole instance is exactly as before; when it
    had none, an entry with an empty queue is left behind. *)
Theorem Requeue_Dequeue_restores w d f :
  started w ->
  exists w',
    calls [OpRequeue d f; OpDequeue d] w
      = Returned ([RError None; RFrame f None], w') /\
    (forall d', queue_of d' w' = queue_of d' w) /\
    entries w' = {[d]} ∪ entries w /\
    (d ∈ entries w -> w' = w).
Proof.
  intros [g Hg]. simpl. unfold bind, ret.
  rewrite (Requeue_eq w d g Hg).
  erewrite Dequeue_eq by reflexivity. rewrite lookup_insert_eq.
  unfold with_lists at 1. simpl. rewrite insert_insert_eq.
  eexists. split; [reflexivity|].
  unfold queue_of, entries. simpl. rewrite Hg. split_and!.
  - intros d'. destruct (decide (d' = d)) as [->|Hne].
    + by rewrite lookup_insert_eq.
    + by rewrite lookup_insert_ne.
  - apply dom_insert_L.
  - intros [q Hq]%elem_of_dom. rewrite Hq. simpl.
    rewrite insert_id by done. by apply with_lists_id.
Qed.

Lemma Requeue_Dequeue_restores_witness :
  exists w',
    calls [OpRequeue "orders" ptrA; OpDequeue "orders"]
      (with_lists (fresh heapAB) {[ "orders" := [ptrB] ]})
      = Returned ([RError None; RFrame ptrA None], w') /\
    (forall d', queue_of d' w'
       = queue_of d' (with_lists (fresh heapAB) {[ "orders" := [ptrB] ]})) /\
    entries w'
      = {[ "orders" ]} ∪ entries (with_lists (fresh heapAB) {[ "orders" := [ptrB] ]}) /\
    ("orders" ∈ entries (with_lists (fresh heapAB) {[ "orders" := [ptrB] ]}) ->
     w' = with_lists (fresh heapAB) {[ "orders" := [ptrB] ]}).
Proof.
  apply (Requeue_Dequeue_restores
           (with_lists (fresh heapAB) {[ "orders" := [ptrB] ]}) "orders" ptrA).
  eexists. reflexivity.
Defined.

(** ** A nil frame in a queue *)

(** X6: a nil frame pointer at the head of a queue is dequeued like any
    frame: [Dequeue] returns a nil frame with a nil error, which is what it
    returns for an empty queue, and takes the nil pointer off the queue. *)
Theorem Dequeue_nil_frame w d q :
  started w -> queue_of d w = None :: q ->
  exists w',
    Dequeue d w = Returned ((None, None), w') /\
    queue_of d w' = q /\ w' <> w.
Proof.
  intros Hw Hq.
  destruct (Dequeue_started w d Hw) as (w' & Hd & _ & _ & Hq' & _).
  rewrite Hq in Hd, Hq'. simpl in *.
  exists w'. split_and!; try done.
  intros ->. rewrite Hq in Hq'. apply (f_equal length) in Hq'. simpl in Hq'. lia.
Qed.

Lemma Dequeue_nil_frame_witness :
  exists w',
    Dequeue "orders" (with_lists (fresh heapAB) {[ "orders" := [None; ptrA] ]})
      = Returned ((None, None), w') /\
    queue_of "orders" w' = [ptrA] /\
    w' <> with_lists (fresh heapAB) {[ "orders" := [None; ptrA] ]}.
Proof.
  apply (Dequeue_nil_frame
           (with_lists (fresh heapAB) {[ "orders" := [None; ptrA] ]})
           "orders" [ptrA]).
  - eexists. reflexivity.
  - reflexivity.
Defined.

(** ** Dequeue called again and again *)

(** X7: on a started instance, [n] calls of [Dequeue] on a destination all
    return with a nil error; they hand out the queued frames front first
    and, once the queue is exhausted, only the empty result; the queue is
    left with what the calls did not reach. *)
Theorem drain_beyond_the_end d n : forall w,
  started w ->
  exists w',
    drain d n w
      = Returned ((fun f => (f, None)) <$>
                    (take n (queue_of d w)
                       ++ replicate (n - length (queue_of d w)) None), w') /\
    queue_of d w' = drop n (queue_of d w).
Proof.
  induction n as [|n IH]; intros w Hw.
  - exists w. simpl. by rewrite drop_0.
  - destruct (Dequeue_started w d Hw) as (w1 & Hc & Hw1 & _ & Hq1 & _).
    destruct (IH w1 Hw1) as (w2 & Hcs & Hq2).
    exists w2. simpl drain. unfold bind, ret. rewrite Hc, Hcs, Hq2, Hq1.
    by destruct (queue_of d w) as [|v q]; simpl;
      rewrite ?take_nil, ?drop_nil, ?Nat.sub_0_r.
Qed.

Lemma drain_beyond_the_end_witness :
  exists w',
    drain "orders" 3 (with_lists (fresh heapAB) {[ "orders" := [ptrA; ptrB] ]})
      = Returned ([(ptrA, None); (ptrB, None); (None, None)], w') /\
    queue_of "orders" w' = [].
Proof.
  destruct (drain_beyond_the_end "orders" 3
              (with_lists (fresh heapAB) {[ "orders" := [ptrA; ptrB] ]}))
    as (w' & Hdr & Hq).
  - eexists. reflexivity.
  - exists w'. split; [exact Hdr | exact Hq].
Defined.

(** ** Calls on different destinations commute *)

Lemma call_on_map w g op :
  lists (store w) = Some g -> data_op op = true ->
  call op w = Returned (result_in op g, with_lists w (map_after op g)).
Proof.
  intros Hg Hop. destruct op as [queue frame|queue frame|queue| |]; try done;
    simpl; unfold bind, ret.
  - by rewrite (Enqueue_eq w queue g Hg).
  - by rewrite (Requeue_eq w queue g Hg).
  - rewrite (Dequeue_eq w queue g Hg).
    destruct (g !! queue) as [[|v l]|]; simpl;
      by rewrite ?(with_lists_id w g Hg).
Qed.

Lemma map_after_lookup_ne op g q :
  dest op <> Some q -> map_after op g !! q = g !! q.
Proof.
  intros Hne. destruct op as [queue frame|queue frame|queue| |]; simpl in *;
    try done; try (rewrite lookup_insert_ne; [done | congruence]).
  destruct (g !! queue) as [[|v l]|]; try done.
  rewrite lookup_insert_ne; [done | congruence].
Qed.

Lemma result_in_other op1 op2 g :
  dest op1 <> dest op2 -> result_in op1 (map_after op2 g) = result_in op1 g.
Proof.
  intros Hne. destruct op1 as [| |queue| |]; simpl in *; try done.
  by rewrite map_after_lookup_ne.
Qed.

Lemma map_after_comm op1 op2 g :
  data_op op1 = true -> data_op op2 = true -> dest op1 <> dest op2 ->
  map_after op1 (map_after op2 g) = map_after op2 (map_after op1 g).
Proof.
  intros H1 H2 Hne.
  destruct op1 as [q1 f1|q1 f1|q1| |], op2 as [q2 f2|q2 f2|q2| |];
    try done; simpl in *;
    assert (q1 <> q2) as Hq by congruence;
    destruct (g !! q1) as [[|v1 l1]|] eqn:E1,
             (g !! q2) as [[|v2 l2]|] eqn:E2; simpl;
    repeat (rewrite ?lookup_insert_ne by congruence; rewrite ?E1, ?E2; simpl);
    try done; by apply insert_insert_ne.
Qed.

(** X8: on a started instance two data operations that name different
    destinations can be called in either order: each returns the same
    result in both orders and the instance ends up the same. *)
Theorem calls_commute w op1 op2 :
  started w -> data_op op1 = true -> data_op op2 = true ->
  dest op1 <> dest op2 ->
  exists r1 r2 w',
    calls [op1; op2] w = Returned ([r1; r2], w') /\
    calls [op2; op1] w = Returned ([r2; r1], w').
Proof.
  intros [g Hg] H1 H2 Hne.
  exists (result_in op1 g), (result_in op2 g),
         (with_lists w (map_after op2 (map_after op1 g))).
  simpl. unfold bind, ret.
  rewrite (call_on_map w g op1 Hg H1), (call_on_map w g op2 Hg H2).
  erewrite !call_on_map by done. simpl.
  rewrite !result_in_other by done.
  unfold with_lists. simpl. by rewrite (map_after_comm op1 op2).
Qed.

Lemma calls_commute_witness :
  exists r1 r2 w',
    calls [OpEnqueue "orders" ptrA; OpDequeue "invoices"]
      (with_lists (fresh heapAB) {[ "invoices" := [ptrC] ]})
      = Returned ([r1; r2], w') /\
    calls [OpDequeue "invoices"; OpEnqueue "orders" ptrA]
      (with_lists (fresh heapAB) {[ "invoices" := [ptrC] ]})
      = Returned ([r2; r1], w').
Proof.
  apply (calls_commute (with_lists (fresh heapAB) {[ "invoices" := [ptrC] ]})
           (OpEnqueue "orders" ptrA) (OpDequeue "invoices")).
  - eexists. reflexivity.
  - reflexivity.
  - reflexivity.
  - discriminate.
Defined.

(** ** Start on an instance that is already started *)

(** X9: [Start] has no guard against a second call: on a started instance,
    after any data operations, it returns, installs a new empty map and so
    drops every queued frame without handing it out; the frames in memory
    are untouched and every [Dequeue] afterwards returns the empty
    result. *)
Theorem Start_again_drops_frames w ops :
  started w -> forallb data_op ops = true ->
  exists rs w',
    calls (ops ++ [OpStart]) w = Returned (rs ++ [RDone], w') /\
    w' = with_lists w ∅ /\
    forall d, queue_of d w' = [] /\
              Dequeue d w' = Returned ((None, None), w').
Proof.
  intros Hw Hops.
  destruct (calls_data ops w Hw Hops) as (rs & w1 & Hc & _ & Hh & _).
  exists rs, (with_lists w ∅). rewrite (calls_app _ _ _ _ _ Hc). simpl.
  unfold with_lists. rewrite Hh. by split_and!.
Qed.

Lemma Start_again_drops_frames_witness :
  exists rs w',
    calls ([OpEnqueue "orders" ptrA; OpEnqueue "orders" ptrB] ++ [OpStart])
      (with_lists (fresh heapAB) ∅) = Returned (rs ++ [RDone], w') /\
    w' = with_lists (with_lists (fresh heapAB) ∅) ∅ /\
    forall d, queue_of d w' = [] /\
              Dequeue d w' = Returned ((None, None), w').
Proof.
  apply (Start_again_drops_frames (with_lists (fresh heapAB) ∅)
           [OpEnqueue "orders" ptrA; OpEnqueue "orders" ptrB]).
  - eexists. reflexivity.
  - reflexivity.
Defined.
